(** * A shallow embedding of the Mandelbrot renderer (src/main.rs)

    f64 is Rocq's primitive binary64 type [float]; its operations are the
    kernel's IEEE-754 round-to-nearest-even operations, specified against
    [SpecFloat] by the Standard Library's [FloatAxioms].  [usize] and [u32]
    are [nat] (buffer sizes are taken not to overflow); [u8] is [Z] with its
    range written out.  A Rust panic is [None] in the [option] monad. *)

From Stdlib Require Import ZArith Lia Floats Uint63.
From stdpp Require Import base list.

Open Scope float_scope.

(** ** Complex<f64> (num-complex) *)

Record Complex := { re : float; im : float }.

(** [impl Add for Complex<T>]: component-wise. *)
Definition cadd (a b : Complex) : Complex :=
  {| re := a.(re) + b.(re); im := a.(im) + b.(im) |}.

(** [impl Mul for Complex<T>]:
    [re = a.re*b.re - a.im*b.im], [im = a.re*b.im + a.im*b.re]. *)
Definition cmul (a b : Complex) : Complex :=
  {| re := a.(re) * b.(re) - a.(im) * b.(im);
     im := a.(re) * b.(im) + a.(im) * b.(re) |}.

(** [Complex::norm_sqr]: [re*re + im*im]. *)
Definition norm_sqr (a : Complex) : float := a.(re) * a.(re) + a.(im) * a.(im).

(** ** [usize as f64]

    Round-to-nearest conversion of a 64-bit unsigned integer.  Below 2^63 the
    value fits the primitive 63-bit conversion; above, the usual halving with
    a sticky low bit keeps the rounding exact, and doubling is exact. *)
Definition usize_as_f64 (n : nat) : float :=
  let z := Z.of_nat n in
  if (z <? 2^63)%Z then of_uint63 (Uint63.of_Z z)
  else 2 * of_uint63 (Uint63.of_Z (Z.lor (Z.shiftr z 1) (Z.land z 1))).

(** ** [pixel_to_point] *)

Definition pixel_to_point (bounds : nat * nat) (pixel : nat * nat)
    (upper_left lower_right : Complex) : Complex :=
  let width := lower_right.(re) - upper_left.(re) in
  let height := upper_left.(im) - lower_right.(im) in
  {| re := upper_left.(re) + usize_as_f64 pixel.1 * width / usize_as_f64 bounds.1;
     im := upper_left.(im) - usize_as_f64 pixel.2 * height / usize_as_f64 bounds.2 |}.

(** ** [mandelbrot]

    [for i in 0..limit { z = z*z + c; if z.norm_sqr() > 2.0 { return Some(i) } }]
    [None].  [mandelbrot_loop c z i n] runs the [n] remaining iterations
    starting at counter [i]. *)
Fixpoint mandelbrot_loop (c z : Complex) (i n : nat) : option nat :=
  match n with
  | O => None
  | S n' =>
      let z' := cadd (cmul z z) c in
      if 2.0 <? norm_sqr z' then Some i else mandelbrot_loop c z' (S i) n'
  end.

Definition czero : Complex := {| re := 0.0; im := 0.0 |}.

Definition mandelbrot (c : Complex) (limit : nat) : option nat :=
  mandelbrot_loop c czero 0 limit.

(** ** [Color] and [color_from_value] *)

(** [#[repr(C, packed)] struct Color { r: u8, g: u8, b: u8 }]; each field is
    a [Z] in [[0, 256)]. *)
Record Color := { r : Z; g : Z; b : Z }.

Definition black : Color := {| r := 0; g := 0; b := 0 |}%Z.

(** [value as u8]: truncation to the low 8 bits. *)
Definition as_u8 (value : nat) : Z := (Z.of_nat value mod 256)%Z.

(** [a - b] on [u8] with the overflow check of a debug build: a result below
    zero panics. *)
Definition u8_sub (a b : Z) : option Z :=
  if (b <=? a)%Z then Some (a - b)%Z else None.

Definition color_from_value (value : nat) : option Color :=
  if (value <=? 30)%nat then Some {| r := 50; g := 60; b := 50 |}%Z
  else if (30 <? value)%nat && (value <=? 90)%nat then
    r' ← u8_sub 255 (as_u8 value);
    g' ← u8_sub 255 (as_u8 value);
    Some {| r := r'; g := g'; b := 20 |}%Z
  else if (90 <? value)%nat && (value <=? 200)%nat then
    g' ← u8_sub 255 (as_u8 value);
    b' ← u8_sub 255 (as_u8 value);
    Some {| r := 40; g := g'; b := b' |}%Z
  else
    b' ← u8_sub 255 (as_u8 value);
    Some {| r := 10; g := 20; b := b' |}%Z.

(** The [match mandelbrot(point, 255) { None => .., Some(value) => .. }] of
    [render]. *)
Definition pixel_of_result (res : option nat) : option Color :=
  match res with
  | None => Some black
  | Some value => color_from_value value
  end.

(** ** [render] *)

(** The colour [render] computes for pixel [(x, y)]. *)
Definition pixel_color (bounds : nat * nat) (upper_left lower_right : Complex)
    (x y : nat) : option Color :=
  pixel_of_result (mandelbrot (pixel_to_point bounds (x, y) upper_left lower_right) 255).

(** [pixels[i] = v]: indexing out of range panics. *)
Definition store (i : nat) (v : Color) (pixels : list Color) : option (list Color) :=
  if (i <? length pixels)%nat then Some (<[i := v]> pixels) else None.

(** [for x in 0..bounds.0 { ... }] for one row [y]. *)
Fixpoint render_row (bounds : nat * nat) (upper_left lower_right : Complex)
    (y : nat) (xs : list nat) (pixels : list Color) : option (list Color) :=
  match xs with
  | [] => Some pixels
  | x :: xs' =>
      c ← pixel_color bounds upper_left lower_right x y;
      pixels' ← store (y * bounds.1 + x) c pixels;
      render_row bounds upper_left lower_right y xs' pixels'
  end.

(** [for y in 0..bounds.1 { ... }]. *)
Fixpoint render_rows (bounds : nat * nat) (upper_left lower_right : Complex)
    (ys : list nat) (pixels : list Color) : option (list Color) :=
  match ys with
  | [] => Some pixels
  | y :: ys' =>
      pixels' ← render_row bounds upper_left lower_right y (seq 0 bounds.1) pixels;
      render_rows bounds upper_left lower_right ys' pixels'
  end.

(** [assert!(pixels.len() == bounds.0 * bounds.1)] and the two loops; the
    result is the buffer after the writes. *)
Definition render (pixels : list Color) (bounds : nat * nat)
    (upper_left lower_right : Complex) : option (list Color) :=
  if (length pixels =? bounds.1 * bounds.2)%nat
  then render_rows bounds upper_left lower_right (seq 0 bounds.2) pixels
  else None.

(** [main] after parsing: [vec![Color{r:0,g:0,b:0}; bounds.0 * bounds.1]]
    handed to [render]. *)
Definition main_render (bounds : nat * nat) (upper_left lower_right : Complex)
    : option (list Color) :=
  render (repeat black (bounds.1 * bounds.2)) bounds upper_left lower_right.

(** ** [parse_pair] and [parse_complex]

    A [&str] is its UTF-8 bytes, a [list Z] of values in [[0, 256)]; a [char]
    is its Unicode scalar value.  [T::from_str] is a parameter returning
    [None] for [Err]. *)

Definition utf8_encode (ch : Z) : list Z :=
  if (ch <? 128)%Z then [ch]
  else if (ch <? 2048)%Z then
    [Z.lor 192 (Z.shiftr ch 6); Z.lor 128 (Z.land ch 63)]
  else if (ch <? 65536)%Z then
    [Z.lor 224 (Z.shiftr ch 12); Z.lor 128 (Z.land (Z.shiftr ch 6) 63);
     Z.lor 128 (Z.land ch 63)]
  else
    [Z.lor 240 (Z.shiftr ch 18); Z.lor 128 (Z.land (Z.shiftr ch 12) 63);
     Z.lor 128 (Z.land (Z.shiftr ch 6) 63); Z.lor 128 (Z.land ch 63)].

Fixpoint is_prefix (p s : list Z) : bool :=
  match p, s with
  | [], _ => true
  | x :: p', y :: s' => (x =? y)%Z && is_prefix p' s'
  | _ :: _, [] => false
  end.

(** Byte index of the first occurrence of [pat] in [s], from index [i]. *)
Fixpoint find_from (pat s : list Z) (i : nat) : option nat :=
  if is_prefix pat s then Some i
  else match s with
       | [] => None
       | _ :: s' => find_from pat s' (S i)
       end.

(** [str::find(separator)]: in well-formed UTF-8 a character's encoding only
    matches at a character boundary, so the character search is a byte
    search for its encoding. *)
Definition str_find (s : list Z) (separator : Z) : option nat :=
  find_from (utf8_encode separator) s 0.

(** [str::is_char_boundary]: index 0, the length, or an index whose byte is
    not a continuation byte [0b10xx_xxxx]. *)
Definition is_char_boundary (s : list Z) (i : nat) : bool :=
  (i =? 0)%nat ||
  match s !! i with
  | None => (i =? length s)%nat
  | Some byte => negb (Z.land byte 192 =? 128)%Z
  end.

(** [&s[..i]] and [&s[i..]]: slicing off a character boundary panics. *)
Definition slice_to (s : list Z) (i : nat) : option (list Z) :=
  if is_char_boundary s i then Some (take i s) else None.

Definition slice_from (s : list Z) (i : nat) : option (list Z) :=
  if is_char_boundary s i then Some (drop i s) else None.

Section ParsePair.
Context {T : Type} (from_str : list Z -> option T).

(** The outer [option] is the panic; the inner one is the function's
    [Option<(T, T)>]. *)
Definition parse_pair (s : list Z) (separator : Z) : option (option (T * T)) :=
  match str_find s separator with
  | None => Some None
  | Some index =>
      lhs ← slice_to s index;
      rhs ← slice_from s (index + 1);
      Some (match from_str lhs, from_str rhs with
            | Some l, Some r => Some (l, r)
            | _, _ => None
            end)
  end.
End ParsePair.

(** [u32::from_str]: an optional [+], then one or more decimal digits, with
    the value below 2^32. *)
Fixpoint decimal_value (acc : Z) (s : list Z) : option Z :=
  match s with
  | [] => Some acc
  | d :: s' =>
      if (48 <=? d)%Z && (d <=? 57)%Z then decimal_value (acc * 10 + (d - 48)) s'
      else None
  end%Z.

Definition u32_from_str (s : list Z) : option Z :=
  let digits := match s with 43%Z :: t => t | _ => s end in
  match digits with
  | [] => None
  | _ => v ← decimal_value 0 digits; if (v <? 2^32)%Z then Some v else None
  end.


(** ** UTF-8 validation ([core::str::from_utf8])

    [std::env::args] yields each argument as a [String], panicking on an
    argument that is not valid Unicode; the check is the standard library's
    validation, with the lead-byte widths and second-byte ranges of the
    Unicode standard (Table 3-7). *)
Definition utf8_char_width (b : Z) : nat :=
  if (b <? 128)%Z then 1
  else if (b <? 194)%Z then 0
  else if (b <? 224)%Z then 2
  else if (b <? 240)%Z then 3
  else if (b <? 245)%Z then 4
  else 0.

(** A continuation byte [0x80..=0xBF]. *)
Definition is_cont (b : Z) : bool := (128 <=? b)%Z && (b <=? 191)%Z.

Definition second_byte_ok (first second : Z) : bool :=
  if (first =? 224)%Z then (160 <=? second)%Z && (second <=? 191)%Z
  else if (first =? 237)%Z then (128 <=? second)%Z && (second <=? 159)%Z
  else if (first =? 240)%Z then (144 <=? second)%Z && (second <=? 191)%Z
  else if (first =? 244)%Z then (128 <=? second)%Z && (second <=? 143)%Z
  else is_cont second.

Fixpoint utf8_valid (s : list Z) : bool :=
  match s with
  | [] => true
  | b0 :: s1 =>
      match utf8_char_width b0, s1 with
      | 1, _ => (0 <=? b0)%Z && utf8_valid s1
      | 2, b1 :: s2 => is_cont b1 && utf8_valid s2
      | 3, b1 :: b2 :: s3 => second_byte_ok b0 b1 && is_cont b2 && utf8_valid s3
      | 4, b1 :: b2 :: b3 :: s4 =>
          second_byte_ok b0 b1 && is_cont b2 && is_cont b3 && utf8_valid s4
      | _, _ => false
      end%nat
  end.

(** ** [colors_to_u8s]

    The [#[repr(C, packed)]] layout puts each [Color] in three consecutive
    bytes [r], [g], [b]; the slice over [3 * pixels.len()] bytes is their
    concatenation. *)
Definition colors_to_u8s (pixels : list Color) : list Z :=
  flat_map (fun c => [c.(r); c.(g); c.(b)]) pixels.

(** ** [main] *)




Section Main.
(** [f64::from_str], and whether [File::create] succeeds for a name.  The
    writes to stderr are taken to succeed; the result of [write_image] is
    discarded by the code and is not modelled. *)
Context (f64_from_str : list Z -> option float) (file_create_ok : list Z -> bool).




End Main.


(** ** Readings of the spec, compared with the code above *)

(** The escape-time evaluator with the squared-magnitude threshold 4.0 that
    the spec states. *)
Fixpoint mandelbrot_loop_spec (c z : Complex) (i n : nat) : option nat :=
  match n with
  | O => None
  | S n' =>
      let z' := cadd (cmul z z) c in
      if 4.0 <? norm_sqr z' then Some i else mandelbrot_loop_spec c z' (S i) n'
  end.

Definition mandelbrot_spec (c : Complex) (limit : nat) : option nat :=
  mandelbrot_loop_spec c czero 0 limit.

(** The five banding rules of the spec's colour table; each gives its colour
    when its condition holds. *)
Definition rule_not_escaped (res : option nat) : option Color :=
  match res with None => Some black | Some _ => None end.

Definition rule_low (res : option nat) : option Color :=
  match res with
  | Some v => if (v <=? 30)%nat then Some {| r := 50; g := 60; b := 50 |}%Z else None
  | None => None
  end.

Definition rule_mid (res : option nat) : option Color :=
  match res with
  | Some v =>
      if (30 <? v)%nat && (v <=? 90)%nat
      then Some {| r := 255 - Z.of_nat v; g := 255 - Z.of_nat v; b := 20 |}%Z
      else None
  | None => None
  end.

Definition rule_high (res : option nat) : option Color :=
  match res with
  | Some v =>
      if (90 <? v)%nat && (v <=? 200)%nat
      then Some {| r := 40; g := 255 - Z.of_nat v; b := 255 - Z.of_nat v |}%Z
      else None
  | None => None
  end.

Definition rule_top (res : option nat) : option Color :=
  match res with
  | Some v =>
      if (200 <? v)%nat then Some {| r := 10; g := 20; b := 255 - Z.of_nat v |}%Z
      else None
  | None => None
  end.

Definition band_rules : list (option nat -> option Color) :=
  [rule_not_escaped; rule_low; rule_mid; rule_high; rule_top].

(** The colours of the rules whose condition holds. *)
Definition applicable_rules (res : option nat) : list Color :=
  omap (fun rule => rule res) band_rules.

(** The colour mapper over any count, with [255 - (value mod 256)]. *)
Definition color_wrapping (value : nat) : Color :=
  let w := (255 - Z.of_nat value mod 256)%Z in
  if (value <=? 30)%nat then {| r := 50; g := 60; b := 50 |}%Z
  else if (value <=? 90)%nat then {| r := w; g := w; b := 20 |}%Z
  else if (value <=? 200)%nat then {| r := 40; g := w; b := w |}%Z
  else {| r := 10; g := 20; b := w |}%Z.


(** ** Binary64 predicates *)

(** A positive binary64 value (finite or +infinity), with an exponent that
    is in range. *)
Definition pos_sf (f : spec_float) : Prop :=
  f = S754_infinity false \/ exists m e, f = S754_finite false m e /\ (-1074 <= e)%Z.

(** A finite value: zero or a finite non-zero number (not an infinity, not
    NaN). *)
Definition finite_f (f : float) : bool :=
  match Prim2SF f with
  | S754_zero _ | S754_finite _ _ _ => true
  | _ => false
  end.

(** [x] is [y] bit for bit, or [y] is -0.0 and [x] is +0.0. *)
Definition same_up_to_zero_sign (x y : float) : Prop :=
  x = y \/ (y = (-0.0)%float /\ x = 0.0).

(** * Properties *)

(** ** The colour mapper *)

Lemma as_u8_small (v : nat) : (v < 256)%nat -> as_u8 v = Z.of_nat v.
Proof. intros Hv. unfold as_u8. apply Z.mod_small. lia. Qed.

Lemma u8_sub_ok (x : Z) : (0 <= x < 256)%Z -> u8_sub 255 x = Some (255 - x)%Z.
Proof. intros Hx. unfold u8_sub. destruct (Z.leb_spec x 255); [done | lia]. Qed.

Lemma as_u8_range (v : nat) : (0 <= as_u8 v < 256)%Z.
Proof. unfold as_u8. apply Z.mod_pos_bound. lia. Qed.

Lemma color_from_value_eq (value : nat) :
  color_from_value value = Some (color_wrapping value).
Proof.
  unfold color_from_value, color_wrapping.
  rewrite (u8_sub_ok (as_u8 value) (as_u8_range value)).
  unfold as_u8; simpl.
  destruct (Nat.leb_spec value 30); [done|].
  destruct (Nat.ltb_spec 30 value); [|lia].
  destruct (Nat.leb_spec value 90); [done|].
  destruct (Nat.ltb_spec 90 value); [|lia].
  destruct (Nat.leb_spec value 200); done.
Qed.

(** C10: for every count, also above 255, the mapper does not panic: the
    channels computed by subtraction are [255 - (value mod 256)]. *)
Theorem color_from_value_total (value : nat) :
  color_from_value value = Some (color_wrapping value).
Proof. apply color_from_value_eq. Qed.

(** C2: for every result of an evaluation with limit 255 (a count below 255
    or no escape) exactly one banding rule applies, and the pixel [render]
    stores is that rule's colour. *)
Theorem pixel_of_result_bands (res : option nat) :
  (forall v, res = Some v -> (v < 255)%nat) ->
  exists c, applicable_rules res = [c] /\ pixel_of_result res = Some c.
Proof.
  intros Hres. destruct res as [v|]; [|by exists black].
  specialize (Hres v eq_refl).
  unfold applicable_rules, pixel_of_result.
  rewrite color_from_value_eq.
  unfold color_wrapping; rewrite Z.mod_small by lia.
  simpl.
  destruct (Nat.leb_spec v 30).
  - destruct (Nat.ltb_spec 30 v); [lia|].
    destruct (Nat.ltb_spec 90 v); [lia|].
    destruct (Nat.ltb_spec 200 v); [lia|]. by eexists.
  - destruct (Nat.ltb_spec 30 v); [|lia].
    destruct (Nat.leb_spec v 90).
    + destruct (Nat.ltb_spec 90 v); [lia|].
      destruct (Nat.ltb_spec 200 v); [lia|]. by eexists.
    + destruct (Nat.ltb_spec 90 v); [|lia].
      destruct (Nat.leb_spec v 200).
      * destruct (Nat.ltb_spec 200 v); [lia|]. by eexists.
      * destruct (Nat.ltb_spec 200 v); [|lia]. by eexists.
Qed.

Lemma pixel_of_result_bands_witness :
  (forall v, Some 100%nat = Some v -> (v < 255)%nat) /\
  exists c, applicable_rules (Some 100%nat) = [c] /\ pixel_of_result (Some 100%nat) = Some c.
Proof.
  assert (H : forall v, Some 100%nat = Some v -> (v < 255)%nat)
    by (intros v Hv; injection Hv as <-; lia).
  split; [exact H | apply (pixel_of_result_bands (Some 100%nat) H)].
Defined.

(** ** The escape-time evaluator *)

(** C1: the code compares the squared magnitude with 2.0, not with the 4.0
    the spec states: at c = 1.5 + 0i the first iterate has squared magnitude
    2.25, so the code reports an escape at count 0 where the spec's evaluator
    reports count 1. *)
Theorem mandelbrot_threshold_is_2 :
  mandelbrot {| re := 1.5; im := 0.0 |} 255 = Some 0%nat /\
  mandelbrot_spec {| re := 1.5; im := 0.0 |} 255 = Some 1%nat.
Proof. split; vm_compute; reflexivity. Qed.





(** ** The coordinate mapper *)



(** ** Numeric-pair parsing *)

(** C9: [parse_pair] slices the right-hand side at [index + 1], one byte
    after the start of the separator.  For the two-byte separator 'é'
    (U+00E9) in "1é2" that index falls inside the separator's encoding and
    the slice panics, although the separator occurs and both sides "1" and
    "2" parse. *)
Theorem parse_pair_multibyte_separator :
  str_find [49; 195; 169; 50]%Z 233%Z = Some 1%nat /\
  u32_from_str [49]%Z = Some 1%Z /\ u32_from_str [50]%Z = Some 2%Z /\
  parse_pair u32_from_str [49; 195; 169; 50]%Z 233%Z = None.
Proof. repeat split; vm_compute; reflexivity. Qed.

(** ** The renderer *)

Lemma pixel_of_result_some (res : option nat) :
  pixel_of_result res
  = Some (match res with None => black | Some v => color_wrapping v end).
Proof. destruct res; [apply color_from_value_eq | done]. Qed.

Lemma row_major_inj (w y x y' x' : nat) :
  (x < w)%nat -> (x' < w)%nat -> (y * w + x = y' * w + x')%nat -> y = y' /\ x = x'.
Proof.
  intros Hx Hx' Heq.
  assert (y = y').
  { destruct (Nat.lt_trichotomy y y') as [Hlt|[Heq'|Hlt]]; [nia|done|nia]. }
  subst. lia.
Qed.

Section Render.
Context (bounds : nat * nat) (upper_left lower_right : Complex).

Lemma render_row_spec (y : nat) (xs : list nat) (pixels : list Color) :
  (forall x, x ∈ xs -> (y * bounds.1 + x < length pixels)%nat) ->
  NoDup xs ->
  exists out,
    render_row bounds upper_left lower_right y xs pixels = Some out /\
    length out = length pixels /\
    (forall i, (forall x, x ∈ xs -> i <> (y * bounds.1 + x)%nat) ->
               out !! i = pixels !! i) /\
    (forall x, x ∈ xs ->
               out !! (y * bounds.1 + x)%nat = pixel_color bounds upper_left lower_right x y).
Proof.
  revert pixels. induction xs as [|x xs IH]; intros pixels Hin Hnd.
  - exists pixels. split; [done|]. split; [done|]. split; [done|]. intros x Hx. by apply elem_of_nil in Hx.
  - apply NoDup_cons in Hnd as [Hx_notin Hnd].
    assert (Hlt : (y * bounds.1 + x < length pixels)%nat)
      by (apply Hin; constructor).
    assert (Hc : exists c, pixel_color bounds upper_left lower_right x y = Some c)
      by (eexists; unfold pixel_color; apply pixel_of_result_some).
    destruct Hc as [c Hc].
    destruct (IH (<[(y * bounds.1 + x)%nat := c]> pixels)) as (out & Hrun & Hlen & Hkeep & Hset).
    { intros x' Hx'. rewrite length_insert. apply Hin. by constructor. }
    { done. }
    exists out. cbn [render_row]. rewrite Hc. cbn. unfold store.
    destruct (Nat.ltb_spec (y * bounds.1 + x) (length pixels)); [|lia].
    cbn. split; [done|]. split; [by rewrite Hlen, length_insert|]. split.
    + intros i Hi. rewrite Hkeep.
      * apply list_lookup_insert_ne. intros Heq. by apply (Hi x); [constructor|].
      * intros x' Hx'. apply Hi. by constructor.
    + intros x' Hx'. apply elem_of_cons in Hx' as [->|Hx'].
      * rewrite Hkeep; [by rewrite list_lookup_insert_eq|].
        intros x'' Hx'' Heq. assert (x = x'') by lia. subst. done.
      * by apply Hset.
Qed.

Lemma render_rows_spec (ys : list nat) (pixels : list Color) :
  (forall y, y ∈ ys -> (y < bounds.2)%nat) ->
  NoDup ys ->
  length pixels = (bounds.1 * bounds.2)%nat ->
  exists out,
    render_rows bounds upper_left lower_right ys pixels = Some out /\
    length out = length pixels /\
    (forall i, (forall y x, y ∈ ys -> (x < bounds.1)%nat -> i <> (y * bounds.1 + x)%nat) ->
               out !! i = pixels !! i) /\
    (forall y x, y ∈ ys -> (x < bounds.1)%nat ->
                 out !! (y * bounds.1 + x)%nat = pixel_color bounds upper_left lower_right x y).
Proof.
  revert pixels. induction ys as [|y ys IH]; intros pixels Hin Hnd Hlen0.
  - exists pixels. split; [done|]. split; [done|]. split; [done|]. intros y x Hy. by apply elem_of_nil in Hy.
  - apply NoDup_cons in Hnd as [Hy_notin Hnd].
    assert (Hy : (y < bounds.2)%nat) by (apply Hin; constructor).
    destruct (render_row_spec y (seq 0 bounds.1) pixels)
      as (px & Hrow & Hlenr & Hkeepr & Hsetr).
    { intros x Hx. apply elem_of_seq in Hx. rewrite Hlen0. nia. }
    { apply NoDup_seq. }
    destruct (IH px) as (out & Hrun & Hlen & Hkeep & Hset).
    { intros y' Hy'. apply Hin. by constructor. }
    { done. }
    { by rewrite Hlenr. }
    exists out. cbn [render_rows]. rewrite Hrow. cbn.
    split; [done|]. split; [lia|]. split.
    + intros i Hi. rewrite Hkeep.
      * apply Hkeepr. intros x Hx. apply elem_of_seq in Hx.
        apply Hi; [constructor|lia].
      * intros y' x Hy' Hx. apply Hi; [by constructor|done].
    + intros y' x Hy' Hx. apply elem_of_cons in Hy' as [->|Hy'].
      * rewrite Hkeep; [apply Hsetr; apply elem_of_seq; lia|].
        intros y'' x'' Hy'' Hx'' Heq.
        destruct (row_major_inj bounds.1 y x y'' x'') as [-> _]; [done|done|done|].
        done.
      * by apply Hset.
Qed.
End Render.

Lemma render_populates_aux (pixels : list Color) (w h : nat) (upper_left lower_right : Complex) :
  length pixels = (w * h)%nat ->
  exists out,
    render pixels (w, h) upper_left lower_right = Some out /\
    length out = (w * h)%nat /\
    (forall y x, (y < h)%nat -> (x < w)%nat ->
       out !! (y * w + x)%nat = pixel_color (w, h) upper_left lower_right x y).
Proof.
  intros Hlen.
  destruct (render_rows_spec (w, h) upper_left lower_right (seq 0 h) pixels)
    as (out & Hrun & Hlen' & _ & Hset).
  { intros y Hy. apply elem_of_seq in Hy. simpl. lia. }
  { apply NoDup_seq. }
  { done. }
  exists out. unfold render. simpl.
  destruct (Nat.eqb_spec (length pixels) (w * h)); [|done].
  split; [done|]. split; [lia|].
  intros y x Hy Hx. apply (Hset y x); [apply elem_of_seq; lia | done].
Qed.

(** C4: given a buffer of exactly [w * h] pixels, [render] completes and
    stores at index [y * w + x], for every [y < h] and [x < w], the colour of
    the mapped point evaluated with limit 255. *)
Theorem render_populates (pixels : list Color) (w h : nat) (upper_left lower_right : Complex) :
  length pixels = (w * h)%nat ->
  exists out,
    render pixels (w, h) upper_left lower_right = Some out /\
    length out = (w * h)%nat /\
    (forall y x, (y < h)%nat -> (x < w)%nat ->
       out !! (y * w + x)%nat = pixel_color (w, h) upper_left lower_right x y).
Proof. apply render_populates_aux. Qed.

Lemma render_populates_witness :
  length [black; black] = (2 * 1)%nat /\
  exists out,
    render [black; black] (2, 1)%nat czero czero = Some out /\
    length out = (2 * 1)%nat /\
    (forall y x, (y < 1)%nat -> (x < 2)%nat ->
       out !! (y * 2 + x)%nat = pixel_color (2, 1)%nat czero czero x y).
Proof.
  split; [reflexivity|].
  apply (render_populates [black; black] 2 1 czero czero). reflexivity.
Defined.

(** C8: [render] panics exactly when the buffer length differs from
    [w * h]; on the buffer [main] builds it never panics. *)
Theorem render_panics_iff (pixels : list Color) (w h : nat) (upper_left lower_right : Complex) :
  (render pixels (w, h) upper_left lower_right = None <-> length pixels <> (w * h)%nat) /\
  main_render (w, h) upper_left lower_right <> None.
Proof.
  assert (Hok : forall px : list Color, length px = (w * h)%nat ->
                render px (w, h) upper_left lower_right <> None).
  { intros px Hpx. destruct (render_populates_aux px w h upper_left lower_right Hpx)
      as (out & -> & _). done. }
  split.
  - split.
    + intros Hnone Hpx. by apply (Hok pixels).
    + intros Hpx. unfold render. simpl.
      destruct (Nat.eqb_spec (length pixels) (w * h)); done.
  - apply Hok. apply repeat_length.
Qed.

(** ** Binary64 facts used by the evaluator and the mapper *)

Module F64.

Lemma Zdigits2_log2 (p : positive) : Zdigits2 (Zpos p) = (Z.log2 (Zpos p) + 1)%Z.
Proof.
  change (Zdigits2 (Zpos p)) with (Zpos (digits2_pos p)).
  induction p as [p IH|p IH|]; [| |done]; cbn [digits2_pos]; rewrite Pos2Z.inj_succ, IH.
  - rewrite Pos2Z.inj_xI, Z.log2_succ_double; lia.
  - rewrite Pos2Z.inj_xO, Z.log2_double; lia.
Qed.

Lemma shr_1_m (r : shr_record) : (0 <= shr_m r)%Z -> shr_m (shr_1 r) = Z.div2 (shr_m r).
Proof.
  destruct r as [m rr ss]; simpl. intros Hm.
  destruct m as [|p|p]; [done| |lia]. destruct p; done.
Qed.

Lemma iter_shr_1_m (p : positive) (r : shr_record) :
  (0 <= shr_m r)%Z -> shr_m (SpecFloat.iter_pos shr_1 p r) = Z.shiftr (shr_m r) (Zpos p).
Proof.
  revert r. induction p as [p IH|p IH|]; intros r Hr; simpl.
  - assert (H1 : (0 <= shr_m (shr_1 r))%Z)
      by (rewrite shr_1_m by done; apply Z.div2_nonneg; done).
    assert (H2 : (0 <= shr_m (SpecFloat.iter_pos shr_1 p (shr_1 r)))%Z)
      by (rewrite IH by done; apply Z.shiftr_nonneg; done).
    rewrite IH, IH, shr_1_m, Z.div2_spec, !Z.shiftr_shiftr by lia.
    f_equal. lia.
  - assert (H2 : (0 <= shr_m (SpecFloat.iter_pos shr_1 p r))%Z)
      by (rewrite IH by done; apply Z.shiftr_nonneg; done).
    rewrite IH, IH, Z.shiftr_shiftr by lia. f_equal. lia.
  - by rewrite shr_1_m, Z.div2_spec.
Qed.

Lemma shr_record_of_loc_m (m : Z) (l : location) : shr_m (shr_record_of_loc m l) = m.
Proof. destruct l as [|[]]; done. Qed.

Lemma fexp_ge (e : Z) : (-1074 <= fexp prec emax e)%Z.
Proof. unfold fexp, emin, prec, emax. lia. Qed.

(** One right shift of the rounding keeps a positive mantissa positive when
    the value is above the subnormal range's bottom. *)
Lemma shr_fexp_pos (m e : Z) (l : location) :
  (0 < m)%Z -> (-1074 < Zdigits2 m + e)%Z ->
  (0 < shr_m (fst (shr_fexp prec emax m e l)))%Z /\
  (-1074 <= snd (shr_fexp prec emax m e l))%Z.
Proof.
  intros Hm HD. destruct m as [|p|p]; try lia.
  unfold shr_fexp, shr.
  pose proof (fexp_ge (Zdigits2 (Zpos p) + e)) as Hf.
  assert (Hlt : (fexp prec emax (Zdigits2 (Zpos p) + e) < Zdigits2 (Zpos p) + e)%Z)
    by (unfold fexp, emin, prec, emax; lia).
  destruct (fexp prec emax (Zdigits2 (Zpos p) + e) - e)%Z as [|k|k] eqn:Hk; simpl.
  - rewrite shr_record_of_loc_m. lia.
  - rewrite iter_shr_1_m by (rewrite shr_record_of_loc_m; lia).
    rewrite shr_record_of_loc_m, Z.shiftr_div_pow2 by lia.
    rewrite Zdigits2_log2 in Hlt, Hk, Hf.
    split; [|lia].
    apply Z.div_str_pos. split; [apply Z.pow_pos_nonneg; lia|].
    transitivity (2 ^ Z.log2 (Zpos p))%Z.
    + apply Z.pow_le_mono_r; lia.
    + apply Z.log2_spec. lia.
  - rewrite shr_record_of_loc_m. lia.
Qed.

Lemma round_nearest_even_pos (m : Z) (l : location) :
  (0 < m)%Z -> (0 < round_nearest_even m l)%Z.
Proof.
  intros Hm. destruct l as [|[]]; simpl; try lia.
  destruct (Z.even m); lia.
Qed.

Lemma binary_round_aux_pos (m : positive) (e : Z) :
  (-1074 < Zdigits2 (Zpos m) + e)%Z ->
  pos_sf (binary_round_aux prec emax false (Zpos m) e loc_Exact).
Proof.
  intros HD. unfold binary_round_aux.
  pose proof (shr_fexp_pos (Zpos m) e loc_Exact ltac:(lia) HD) as [H1 H1e].
  destruct (shr_fexp prec emax (Zpos m) e loc_Exact) as [mrs' e'] eqn:E1. simpl in H1, H1e.
  pose proof (round_nearest_even_pos (shr_m mrs') (loc_of_shr_record mrs') H1) as Hr.
  set (m1 := round_nearest_even (shr_m mrs') (loc_of_shr_record mrs')) in *.
  assert (HD2 : (-1074 < Zdigits2 m1 + e')%Z).
  { destruct m1 as [|q|q]; try lia. simpl. lia. }
  pose proof (shr_fexp_pos m1 e' loc_Exact Hr HD2) as [H2 H2e].
  destruct (shr_fexp prec emax m1 e' loc_Exact) as [mrs'' e''] eqn:E2. simpl in H2, H2e.
  destruct (shr_m mrs'') as [|q|q]; try lia.
  destruct (e'' <=? emax - prec)%Z; [right; eauto | by left].
Qed.

Lemma binary_normalize_pos (m : positive) :
  pos_sf (binary_normalize prec emax (Zpos m) 0 false).
Proof.
  unfold binary_normalize, binary_round, shl_align.
  pose proof (fexp_ge (Zpos (digits2_pos m) + 0)) as Hf.
  destruct (fexp prec emax (Zpos (digits2_pos m) + 0) - 0)%Z as [|d|d] eqn:Hd.
  - apply binary_round_aux_pos. simpl. lia.
  - apply binary_round_aux_pos. simpl. lia.
  - apply binary_round_aux_pos. simpl. lia.
Qed.
End F64.

Module F64Ops.
Import F64.

Lemma Prim2SF_two : Prim2SF 2.0 = S754_finite false 4503599627370496 (-51).
Proof. vm_compute. reflexivity. Qed.

Lemma of_uint63_pos (z : Z) :
  (1 <= z < 2^63)%Z -> pos_sf (Prim2SF (of_uint63 (Uint63.of_Z z))).
Proof.
  intros Hz. rewrite of_uint63_spec, Uint63.of_Z_spec.
  replace wB with (2^63)%Z by reflexivity. rewrite Z.mod_small by lia.
  destruct z as [|p|p]; try lia. apply binary_normalize_pos.
Qed.

(** [usize as f64] of a positive [usize] is a positive binary64 value. *)
Lemma usize_as_f64_pos (n : nat) :
  (1 <= n)%nat -> (Z.of_nat n < 2^64)%Z -> pos_sf (Prim2SF (usize_as_f64 n)).
Proof.
  intros Hn Hn64. unfold usize_as_f64. cbv zeta.
  destruct (Z.ltb_spec (Z.of_nat n) (2^63)) as [Hlt|Hge].
  - apply of_uint63_pos. lia.
  - set (a := Z.shiftr (Z.of_nat n) 1). set (c := Z.land (Z.of_nat n) 1).
    assert (Ha : (2^62 <= a < 2^63)%Z).
    { unfold a. rewrite Z.shiftr_div_pow2 by lia. split.
      - apply Z.div_le_lower_bound; lia.
      - apply Z.div_lt_upper_bound; lia. }
    assert (Hc : (0 <= c <= 1)%Z).
    { pose proof (Z.land_ones (Z.of_nat n) 1 ltac:(lia)) as E.
      change (Z.ones 1) with 1%Z in E. unfold c. rewrite E.
      pose proof (Z.mod_pos_bound (Z.of_nat n) (2^1)). lia. }
    assert (Hk : (1 <= Z.lor a c < 2^63)%Z).
    { assert (0 <= Z.lor a c)%Z by (apply Z.lor_nonneg; lia).
      assert (Z.lor a c <> 0)%Z by (rewrite Z.lor_eq_0_iff; lia).
      split; [lia|].
      apply Z.log2_lt_pow2; [lia|].
      rewrite Z.log2_lor by lia.
      assert (Z.log2 a < 63)%Z by (apply Z.log2_lt_pow2; lia).
      assert (Z.log2 c <= 0)%Z.
      { destruct (Z.eq_dec c 0%Z) as [->|]; [done|]. replace c with 1%Z by lia. done. }
      lia. }
    pose proof (of_uint63_pos (Z.lor a c) Hk) as Hpos.
    rewrite FloatAxioms.mul_spec, Prim2SF_two.
    destruct Hpos as [Hinf|(m & e & Hfin & He)].
    + rewrite Hinf. by left.
    + rewrite Hfin. unfold SF64mul, SFmul. simpl xorb.
      apply binary_round_aux_pos.
      rewrite Zdigits2_log2, Pos2Z.inj_mul.
      replace (Z.pos 4503599627370496) with (2^52)%Z by reflexivity.
      rewrite Z.mul_comm, Z.log2_mul_pow2 by lia.
      pose proof (Z.log2_nonneg (Z.pos m)). lia.
Qed.




End F64Ops.

Module Mapper.
Import F64 F64Ops.

Lemma Prim2SF_zero : Prim2SF 0.0 = S754_zero false.
Proof. vm_compute. reflexivity. Qed.

Lemma Prim2SF_neg_zero : Prim2SF (-0.0) = S754_zero true.
Proof. vm_compute. reflexivity. Qed.

Lemma usize_as_f64_0 : usize_as_f64 0 = 0.0.
Proof. vm_compute. reflexivity. Qed.

Lemma finite_f_sub_l (x y : float) : finite_f (x - y) = true -> finite_f x = true.
Proof.
  unfold finite_f. rewrite FloatAxioms.sub_spec. unfold SF64sub, SFsub.
  destruct (Prim2SF x) as [[]|[]| |[] mx ex];
    destruct (Prim2SF y) as [[]|[]| |[] my ey]; done.
Qed.

Lemma finite_f_sub_r (x y : float) : finite_f (x - y) = true -> finite_f y = true.
Proof.
  unfold finite_f. rewrite FloatAxioms.sub_spec. unfold SF64sub, SFsub.
  destruct (Prim2SF y) as [[]|[]| |[] my ey];
    destruct (Prim2SF x) as [[]|[]| |[] mx ex]; done.
Qed.

(** [0 * span / n] is a zero for a finite span and a positive [usize] [n]. *)
Lemma zero_offset (span : float) (n : nat) :
  finite_f span = true -> (1 <= n)%nat -> (Z.of_nat n < 2^64)%Z ->
  exists s, Prim2SF (usize_as_f64 0 * span / usize_as_f64 n) = S754_zero s.
Proof.
  intros Hspan Hn Hn64. rewrite usize_as_f64_0.
  rewrite FloatAxioms.div_spec, FloatAxioms.mul_spec, Prim2SF_zero.
  unfold finite_f in Hspan.
  pose proof (usize_as_f64_pos n Hn Hn64) as Hd.
  destruct (Prim2SF span) as [sy|sy| |sy my ey]; try done;
    destruct Hd as [-> | (m & e & -> & _)]; by eexists.
Qed.

Lemma add_zero_same (x : float) (s : bool) (z : float) :
  finite_f x = true -> Prim2SF z = S754_zero s -> same_up_to_zero_sign (x + z) x.
Proof.
  unfold finite_f, same_up_to_zero_sign. intros Hx Hz.
  destruct (Prim2SF x) as [sx|sx| |sx mx ex] eqn:Ex; try done.
  - destruct sx, s.
    + left. apply Prim2SF_inj. by rewrite FloatAxioms.add_spec, Ex, Hz.
    + right. split; apply Prim2SF_inj;
        [by rewrite Ex, Prim2SF_neg_zero | by rewrite FloatAxioms.add_spec, Ex, Hz, Prim2SF_zero].
    + left. apply Prim2SF_inj. by rewrite FloatAxioms.add_spec, Ex, Hz.
    + left. apply Prim2SF_inj. by rewrite FloatAxioms.add_spec, Ex, Hz.
  - left. apply Prim2SF_inj. by rewrite FloatAxioms.add_spec, Ex, Hz.
Qed.

Lemma sub_zero_same (x : float) (s : bool) (z : float) :
  finite_f x = true -> Prim2SF z = S754_zero s -> same_up_to_zero_sign (x - z) x.
Proof.
  unfold finite_f, same_up_to_zero_sign. intros Hx Hz.
  destruct (Prim2SF x) as [sx|sx| |sx mx ex] eqn:Ex; try done.
  - destruct sx, s.
    + right. split; apply Prim2SF_inj;
        [by rewrite Ex, Prim2SF_neg_zero | by rewrite FloatAxioms.sub_spec, Ex, Hz, Prim2SF_zero].
    + left. apply Prim2SF_inj. by rewrite FloatAxioms.sub_spec, Ex, Hz.
    + left. apply Prim2SF_inj. by rewrite FloatAxioms.sub_spec, Ex, Hz.
    + left. apply Prim2SF_inj. by rewrite FloatAxioms.sub_spec, Ex, Hz.
  - left. apply Prim2SF_inj. by rewrite FloatAxioms.sub_spec, Ex, Hz.
Qed.

Lemma same_up_to_zero_sign_eqb (x y : float) :
  finite_f y = true -> same_up_to_zero_sign x y -> (x =? y)%float = true.
Proof.
  unfold finite_f, same_up_to_zero_sign. intros Hy [-> | [-> ->]].
  - rewrite FloatAxioms.eqb_spec. unfold SFeqb, SFcompare.
    destruct (Prim2SF y) as [[]|[]| |[] m e]; try done;
      rewrite Z.compare_refl, Pos.compare_cont_refl; done.
  - vm_compute. reflexivity.
Qed.

End Mapper.

(** ** Escape outside radius 2 *)



(** ** Pixel (0, 0) *)

(** C7, counterexample: with the corners (-2^1023, 1) and (2^1023, -1) the
    real span overflows to +infinity, [0 * infinity] is NaN, and pixel
    (0, 0) maps to a point whose real part is NaN instead of -2^1023. *)
Lemma pixel_to_point_origin_overflow :
  ((pixel_to_point (1, 1)%nat (0, 0)%nat
     {| re := -0x1p1023; im := 1.0 |} {| re := 0x1p1023; im := -1.0 |}).(re)
    =? -0x1p1023)%float = false /\
  pixel_to_point (1, 1)%nat (0, 0)%nat
    {| re := -0x1p1023; im := 1.0 |} {| re := 0x1p1023; im := -1.0 |}
    <> {| re := -0x1p1023; im := 1.0 |}.
Proof.
  split; [vm_compute; reflexivity|].
  intros Heq. apply (f_equal (fun p => Prim2SF p.(re))) in Heq.
  vm_compute in Heq. discriminate.
Qed.

(** C7, amended: for every [usize] bounds [w, h >= 1] and every rectangle
    whose spans [lower_right.re - upper_left.re] and
    [upper_left.im - lower_right.im] are finite, pixel (0, 0) maps to
    [upper_left] bit for bit, except that a -0.0 component may come back as
    +0.0; both components compare equal ([==]) to [upper_left]'s. *)
Theorem pixel_to_point_origin (w h : nat) (upper_left lower_right : Complex) :
  (1 <= w)%nat -> (Z.of_nat w < 2^64)%Z -> (1 <= h)%nat -> (Z.of_nat h < 2^64)%Z ->
  finite_f (lower_right.(re) - upper_left.(re)) = true ->
  finite_f (upper_left.(im) - lower_right.(im)) = true ->
  same_up_to_zero_sign (pixel_to_point (w, h) (0, 0)%nat upper_left lower_right).(re)
    upper_left.(re) /\
  same_up_to_zero_sign (pixel_to_point (w, h) (0, 0)%nat upper_left lower_right).(im)
    upper_left.(im) /\
  ((pixel_to_point (w, h) (0, 0)%nat upper_left lower_right).(re) =? upper_left.(re))%float
    = true /\
  ((pixel_to_point (w, h) (0, 0)%nat upper_left lower_right).(im) =? upper_left.(im))%float
    = true.
Proof.
  intros Hw Hw64 Hh Hh64 Hre Him.
  pose proof (Mapper.finite_f_sub_r _ _ Hre) as Hul_re.
  pose proof (Mapper.finite_f_sub_l _ _ Him) as Hul_im.
  destruct (Mapper.zero_offset _ w Hre Hw Hw64) as [s1 Hz1].
  destruct (Mapper.zero_offset _ h Him Hh Hh64) as [s2 Hz2].
  assert (Hsre : same_up_to_zero_sign
                   (pixel_to_point (w, h) (0, 0)%nat upper_left lower_right).(re)
                   upper_left.(re))
    by (apply (Mapper.add_zero_same _ s1); assumption).
  assert (Hsim : same_up_to_zero_sign
                   (pixel_to_point (w, h) (0, 0)%nat upper_left lower_right).(im)
                   upper_left.(im))
    by (apply (Mapper.sub_zero_same _ s2); assumption).
  split; [done|]. split; [done|].
  split; apply Mapper.same_up_to_zero_sign_eqb; assumption.
Qed.

Lemma pixel_to_point_origin_witness :
  (1 <= 1)%nat /\ (Z.of_nat 1 < 2^64)%Z /\
  finite_f (1.0 - -1.0) = true /\ finite_f (1.0 - -1.0) = true /\
  ((pixel_to_point (1, 1)%nat (0, 0)%nat {| re := -1.0; im := 1.0 |} {| re := 1.0; im := -1.0 |}).(re)
     =? -1.0)%float = true.
Proof.
  assert (H1 : (1 <= 1)%nat) by lia.
  assert (H2 : (Z.of_nat 1 < 2^64)%Z) by (simpl; lia).
  assert (H3 : finite_f (1.0 - -1.0) = true) by (vm_compute; reflexivity).
  do 4 (split; [assumption|]).
  exact (proj1 (proj2 (proj2 (pixel_to_point_origin 1 1
           {| re := -1.0; im := 1.0 |} {| re := 1.0; im := -1.0 |} H1 H2 H1 H2 H3 H3)))).
Defined.

(** * Further properties of the program *)

(** ** The escape-time loop *)

Lemma mandelbrot_loop_range (c z : Complex) (i n k : nat) :
  mandelbrot_loop c z i n = Some k -> (i <= k < i + n)%nat.
Proof.
  revert z i. induction n as [|n IH]; intros z i; simpl; [discriminate|].
  destruct (2.0 <? norm_sqr (cadd (cmul z z) c)).
  - intros Heq. injection Heq. lia.
  - intros Hk. apply IH in Hk. lia.
Qed.


(** X1: a reported escape count is below the iteration limit. *)
Theorem mandelbrot_count_below_limit (c : Complex) (limit i : nat) :
  mandelbrot c limit = Some i -> (i < limit)%nat.
Proof. unfold mandelbrot. intros Hk. apply mandelbrot_loop_range in Hk. lia. Qed.

Lemma mandelbrot_count_below_limit_witness :
  mandelbrot {| re := 1.5; im := 0.0 |} 255 = Some 0%nat /\ (0 < 255)%nat.
Proof.
  split; [vm_compute; reflexivity|].
  apply (mandelbrot_count_below_limit {| re := 1.5; im := 0.0 |} 255 0).
  vm_compute. reflexivity.
Defined.



(** ** Reflection in the real axis

    [Rsf x y]: [y] is the negation of [x], or both are zeros (of either
    sign).  The imaginary parts of the iterates of [c] and of [conj c] stay
    in this relation while the real parts stay equal. *)
Module Reflect.























End Reflect.


(** ** Colours and bytes *)

Lemma color_wrapping_bytes (value : nat) :
  let c := color_wrapping value in
  (0 <= c.(r) < 256)%Z /\ (0 <= c.(g) < 256)%Z /\ (0 <= c.(b) < 256)%Z /\ c <> black.
Proof.
  pose proof (Z.mod_pos_bound (Z.of_nat value) 256 ltac:(lia)) as Hm.
  unfold color_wrapping.
  destruct (Nat.leb_spec value 30); [simpl; repeat split; try lia; discriminate|].
  destruct (Nat.leb_spec value 90).
  - rewrite (Z.mod_small (Z.of_nat value) 256) by lia. simpl.
    repeat split; try lia. intros Heq. injection Heq. lia.
  - destruct (Nat.leb_spec value 200); simpl; repeat split; try lia; discriminate.
Qed.


(** X4: every pixel [render] computes is a colour with channels in
    [0..=255], and it is black exactly when its point did not escape within
    255 iterations. *)
Theorem pixel_color_black_iff_not_escaped (bounds : nat * nat)
    (upper_left lower_right : Complex) (x y : nat) :
  exists col,
    pixel_color bounds upper_left lower_right x y = Some col /\
    (0 <= col.(r) < 256)%Z /\ (0 <= col.(g) < 256)%Z /\ (0 <= col.(b) < 256)%Z /\
    (col = black <->
     mandelbrot (pixel_to_point bounds (x, y) upper_left lower_right) 255 = None).
Proof.
  unfold pixel_color. rewrite pixel_of_result_some.
  destruct (mandelbrot (pixel_to_point bounds (x, y) upper_left lower_right) 255)
    as [v|]; eexists; (split; [reflexivity|]).
  - destruct (color_wrapping_bytes v) as (Hr & Hg & Hb & Hnb).
    do 3 (split; [assumption|]). split; [done | discriminate].
  - simpl. repeat split; lia.
Qed.

Lemma colors_to_u8s_bytes (pixels : list Color) :
  length (colors_to_u8s pixels) = (3 * length pixels)%nat /\
  forall i c, pixels !! i = Some c ->
    colors_to_u8s pixels !! (3 * i)%nat = Some c.(r) /\
    colors_to_u8s pixels !! (3 * i + 1)%nat = Some c.(g) /\
    colors_to_u8s pixels !! (3 * i + 2)%nat = Some c.(b).
Proof.
  induction pixels as [|p pixels [IHlen IH]]; split.
  - reflexivity.
  - intros i c Hi. discriminate.
  - simpl. rewrite IHlen. lia.
  - intros [|i] c Hi; simpl in Hi.
    + injection Hi as <-. repeat split.
    + destruct (IH i c Hi) as (H0 & H1 & H2).
      replace (3 * S i)%nat with (S (S (S (3 * i)))) by lia.
      replace (S (S (S (3 * i))) + 1)%nat with (S (S (S (3 * i + 1)))) by lia.
      replace (S (S (S (3 * i))) + 2)%nat with (S (S (S (3 * i + 2)))) by lia.
      simpl. auto.
Qed.

(** X6: [colors_to_u8s] gives three bytes per pixel, and the bytes of pixel
    [i] are at [3 * i], [3 * i + 1] and [3 * i + 2] in the order [r], [g],
    [b]. *)
Theorem colors_to_u8s_layout (pixels : list Color) :
  length (colors_to_u8s pixels) = (3 * length pixels)%nat /\
  forall i c, pixels !! i = Some c ->
    colors_to_u8s pixels !! (3 * i)%nat = Some c.(r) /\
    colors_to_u8s pixels !! (3 * i + 1)%nat = Some c.(g) /\
    colors_to_u8s pixels !! (3 * i + 2)%nat = Some c.(b).
Proof. apply colors_to_u8s_bytes. Qed.

(** ** [render] *)

Lemma render_out_eq (p1 p2 : list Color) (w h : nat) (upper_left lower_right : Complex) :
  length p1 = (w * h)%nat -> length p2 = (w * h)%nat ->
  render p1 (w, h) upper_left lower_right = render p2 (w, h) upper_left lower_right.
Proof.
  intros H1 H2.
  destruct (render_populates_aux p1 w h upper_left lower_right H1) as (o1 & -> & L1 & S1).
  destruct (render_populates_aux p2 w h upper_left lower_right H2) as (o2 & -> & L2 & S2).
  f_equal. apply list_eq. intros i.
  destruct (decide (i < w * h)%nat) as [Hi|Hi].
  - assert (Hw : w <> 0%nat) by (intros ->; lia).
    pose proof (Nat.div_mod i w Hw) as Hdm.
    pose proof (Nat.mod_upper_bound i w Hw) as Hx.
    assert (Hy : (i / w < h)%nat) by (apply Nat.Div0.div_lt_upper_bound; lia).
    replace i with (i / w * w + i mod w)%nat by lia.
    rewrite S1, S2 by assumption. reflexivity.
  - rewrite !lookup_ge_None_2 by lia. reflexivity.
Qed.

(** X5: what [render] leaves in a buffer of the right size does not depend
    on what the buffer held before: every pixel is overwritten. *)
Theorem render_ignores_buffer (p1 p2 : list Color) (w h : nat)
    (upper_left lower_right : Complex) :
  length p1 = (w * h)%nat -> length p2 = (w * h)%nat ->
  render p1 (w, h) upper_left lower_right = render p2 (w, h) upper_left lower_right.
Proof. apply render_out_eq. Qed.

Lemma render_ignores_buffer_witness :
  length [black; black] = (2 * 1)%nat /\
  length [{| r := 1; g := 2; b := 3 |}%Z; {| r := 4; g := 5; b := 6 |}%Z] = (2 * 1)%nat /\
  render [black; black] (2, 1)%nat czero {| re := 1.0; im := -1.0 |}
  = render [{| r := 1; g := 2; b := 3 |}%Z; {| r := 4; g := 5; b := 6 |}%Z] (2, 1)%nat
      czero {| re := 1.0; im := -1.0 |}.
Proof.
  assert (H1 : length [black; black] = (2 * 1)%nat) by reflexivity.
  assert (H2 : length [{| r := 1; g := 2; b := 3 |}%Z; {| r := 4; g := 5; b := 6 |}%Z]
               = (2 * 1)%nat) by reflexivity.
  split; [exact H1|]. split; [exact H2|].
  exact (render_ignores_buffer _ _ 2 1 czero {| re := 1.0; im := -1.0 |} H1 H2).
Defined.

(** ** UTF-8 and [parse_pair] with an ASCII separator *)

Module Utf8.

Lemma land_192_cont (c : Z) : (0 <= c < 256)%Z -> (Z.land c 192 =? 128)%Z = is_cont c.
Proof.
  intros Hc.
  assert (Hall : forallb (fun k => Bool.eqb (Z.land (Z.of_nat k) 192 =? 128)%Z
                                            (is_cont (Z.of_nat k))) (seq 0 256) = true)
    by (vm_compute; reflexivity).
  rewrite forallb_forall in Hall. specialize (Hall (Z.to_nat c)).
  rewrite Z2Nat.id in Hall by lia.
  apply Bool.eqb_prop, Hall. apply in_seq. lia.
Qed.

Lemma width_1 (b : Z) : utf8_char_width b = 1%nat -> (b < 128)%Z.
Proof.
  unfold utf8_char_width. intros H. destruct (Z.ltb_spec b 128); [lia|].
  destruct (b <? 194)%Z, (b <? 224)%Z, (b <? 240)%Z, (b <? 245)%Z; discriminate.
Qed.

Lemma width_lead (b : Z) (k : nat) : utf8_char_width b = S (S k) -> (194 <= b < 245)%Z.
Proof.
  unfold utf8_char_width. intros H.
  destruct (Z.ltb_spec b 128); [discriminate|].
  destruct (Z.ltb_spec b 194); [discriminate|].
  destruct (Z.ltb_spec b 224); [lia|].
  destruct (Z.ltb_spec b 240); [lia|].
  destruct (Z.ltb_spec b 245); [lia | discriminate].
Qed.

Lemma is_cont_ge (b : Z) : is_cont b = true -> (128 <= b)%Z.
Proof. unfold is_cont. intros H. apply andb_true_iff in H as [H _]. lia. Qed.

Lemma second_byte_ok_ge (a b : Z) : second_byte_ok a b = true -> (128 <= b)%Z.
Proof.
  unfold second_byte_ok.
  destruct (a =? 224)%Z; [intros H; apply andb_true_iff in H as [H _]; lia|].
  destruct (a =? 237)%Z; [intros H; apply andb_true_iff in H as [H _]; lia|].
  destruct (a =? 240)%Z; [intros H; apply andb_true_iff in H as [H _]; lia|].
  destruct (a =? 244)%Z; [intros H; apply andb_true_iff in H as [H _]; lia|].
  apply is_cont_ge.
Qed.

(** A valid string starts with a byte that is not a continuation byte. *)
Lemma valid_head (c : Z) (t : list Z) :
  utf8_valid (c :: t) = true -> (0 <= c < 256)%Z /\ is_cont c = false.
Proof.
  simpl. unfold is_cont.
  destruct (utf8_char_width c) as [|[|[|k]]] eqn:W; try discriminate.
  - intros H. apply andb_true_iff in H as [H _].
    pose proof (width_1 c W). split; [lia|].
    destruct (Z.leb_spec 128 c); [lia | reflexivity].
  - intros _. pose proof (width_lead c _ W).
    split; [lia|]. destruct (Z.leb_spec c 191); [lia|]. apply andb_false_r.
  - intros _. pose proof (width_lead c _ W).
    split; [lia|]. destruct (Z.leb_spec c 191); [lia|]. apply andb_false_r.
Qed.

(** An ASCII byte of a valid string starts a character, so what follows it
    is valid again. *)
Lemma valid_drop_ascii (s : list Z) (i : nat) (c : Z) :
  utf8_valid s = true -> s !! i = Some c -> (c < 128)%Z ->
  utf8_valid (drop (S i) s) = true.
Proof.
  remember (length s) as n eqn:Hn. revert s Hn i.
  induction n as [n IH] using lt_wf_ind. intros s Hn i Hv Hi Hc.
  destruct s as [|b0 s1]; [discriminate|]. simpl in Hn.
  simpl in Hv. destruct (utf8_char_width b0) as [|[|[|[|[|k]]]]] eqn:W;
    try discriminate.
  - apply andb_true_iff in Hv as [_ Hv1].
    destruct i as [|i]; simpl in Hi |- *; [exact Hv1|].
    apply (IH (length s1)) with (i := i); try done; lia.
  - destruct s1 as [|b1 s2]; [discriminate|].
    apply andb_true_iff in Hv as [Hb1 Hv2].
    pose proof (width_lead b0 _ W). pose proof (is_cont_ge b1 Hb1).
    destruct i as [|[|i]]; simpl in Hi.
    + injection Hi as <-. lia.
    + injection Hi as <-. lia.
    + simpl. apply (IH (length s2)) with (i := i); try done; simpl in Hn; lia.
  - destruct s1 as [|b1 [|b2 s3]]; try discriminate.
    apply andb_true_iff in Hv as [Hv Hv3]. apply andb_true_iff in Hv as [Hb1 Hb2].
    pose proof (width_lead b0 _ W). pose proof (second_byte_ok_ge b0 b1 Hb1).
    pose proof (is_cont_ge b2 Hb2).
    destruct i as [|[|[|i]]]; simpl in Hi.
    + injection Hi as <-. lia.
    + injection Hi as <-. lia.
    + injection Hi as <-. lia.
    + simpl. apply (IH (length s3)) with (i := i); try done; simpl in Hn; lia.
  - destruct s1 as [|b1 [|b2 [|b3 s4]]]; try discriminate.
    apply andb_true_iff in Hv as [Hv Hv4]. apply andb_true_iff in Hv as [Hv Hb3].
    apply andb_true_iff in Hv as [Hb1 Hb2].
    pose proof (width_lead b0 _ W). pose proof (second_byte_ok_ge b0 b1 Hb1).
    pose proof (is_cont_ge b2 Hb2). pose proof (is_cont_ge b3 Hb3).
    destruct i as [|[|[|[|i]]]]; simpl in Hi.
    + injection Hi as <-. lia.
    + injection Hi as <-. lia.
    + injection Hi as <-. lia.
    + injection Hi as <-. lia.
    + simpl. apply (IH (length s4)) with (i := i); try done; simpl in Hn; lia.
Qed.

Lemma find_from_sep (sep : Z) (l r : list Z) (i : nat) :
  sep ∉ l -> find_from [sep] (l ++ sep :: r) i = Some (i + length l)%nat.
Proof.
  revert i. induction l as [|a l IH]; intros i Hl; simpl.
  - rewrite Z.eqb_refl. simpl. f_equal. lia.
  - apply not_elem_of_cons in Hl as [Ha Hl].
    destruct (Z.eqb_spec sep a); [done|]. simpl.
    rewrite IH by done. f_equal. lia.
Qed.

Lemma find_from_none (sep : Z) (s : list Z) (i : nat) :
  sep ∉ s -> find_from [sep] s i = None.
Proof.
  revert i. induction s as [|a s IH]; intros i Hs; simpl; [done|].
  apply not_elem_of_cons in Hs as [Ha Hs].
  destruct (Z.eqb_spec sep a); [done|]. simpl. by apply IH.
Qed.

Lemma str_find_ascii (s : list Z) (sep : Z) :
  (sep < 128)%Z -> str_find s sep = find_from [sep] s 0.
Proof. intros H. unfold str_find, utf8_encode. by rewrite (proj2 (Z.ltb_lt _ _) H). Qed.

(** The first occurrence of a byte. *)
Lemma split_first (x : Z) (s : list Z) :
  x ∈ s -> exists l r, s = l ++ x :: r /\ x ∉ l.
Proof.
  induction s as [|a s IH]; intros Hin; [by apply elem_of_nil in Hin|].
  destruct (Z.eq_dec a x) as [<-|Hne].
  - exists [], s. split; [done | apply not_elem_of_nil].
  - apply elem_of_cons in Hin as [->|Hin]; [done|].
    destruct (IH Hin) as (l & r & -> & Hl).
    exists (a :: l), r. split; [done|].
    apply not_elem_of_cons. split; [congruence | done].
Qed.

(** [parse_pair] with an ASCII separator on a valid string: no separator
    gives [None]; otherwise the string is split around the first one. *)
Lemma parse_pair_ascii {T : Type} (from_str : list Z -> option T) (s : list Z) (sep : Z) :
  utf8_valid s = true -> (0 <= sep < 128)%Z ->
  (sep ∉ s -> parse_pair from_str s sep = Some None) /\
  (forall l r, s = l ++ sep :: r -> sep ∉ l ->
     parse_pair from_str s sep
     = Some (match from_str l, from_str r with
             | Some x, Some y => Some (x, y)
             | _, _ => None
             end)).
Proof.
  intros Hv Hsep. split.
  - intros Hn. unfold parse_pair. rewrite str_find_ascii, find_from_none by (done || lia).
    reflexivity.
  - intros l r -> Hl. unfold parse_pair.
    rewrite str_find_ascii, find_from_sep by (done || lia). simpl.
    assert (Hto : slice_to (l ++ sep :: r) (length l) = Some l).
    { unfold slice_to, is_char_boundary.
      rewrite list_lookup_middle by done.
      rewrite land_192_cont by lia.
      unfold is_cont. destruct (Z.leb_spec 128 sep); [lia|]. rewrite orb_true_r.
      by rewrite take_app_length. }
    assert (Hr : utf8_valid r = true).
    { pose proof (valid_drop_ascii _ (length l) sep Hv
                    ltac:(by rewrite list_lookup_middle) ltac:(lia)) as Hd.
      replace (S (length l)) with (length l + 1)%nat in Hd by lia.
      rewrite drop_app_add in Hd. exact Hd. }
    assert (Hfrom : slice_from (l ++ sep :: r) (length l + 1) = Some r).
    { unfold slice_from, is_char_boundary.
      rewrite lookup_app_r by lia.
      replace (length l + 1 - length l)%nat with 1%nat by lia.
      rewrite drop_app_add.
      destruct r as [|c t].
      - change ((sep :: []) !! 1%nat) with (@None Z).
        rewrite length_app. cbn [length]. rewrite Nat.eqb_refl, orb_true_r.
        reflexivity.
      - change ((sep :: c :: t) !! 1%nat) with (Some c).
        destruct (valid_head c t Hr) as [Hc Hcont].
        rewrite land_192_cont, Hcont by lia. rewrite orb_true_r. reflexivity. }
    rewrite Hto. simpl. rewrite Hfrom. reflexivity.
Qed.

Lemma parse_pair_ascii_total {T : Type} (from_str : list Z -> option T)
    (s : list Z) (sep : Z) :
  utf8_valid s = true -> (0 <= sep < 128)%Z ->
  parse_pair from_str s sep <> None /\
  (sep ∉ s -> parse_pair from_str s sep = Some None) /\
  (forall l r, s = l ++ sep :: r -> sep ∉ l ->
     parse_pair from_str s sep
     = Some (match from_str l, from_str r with
             | Some x, Some y => Some (x, y)
             | _, _ => None
             end)).
Proof.
  intros Hv Hsep.
  destruct (parse_pair_ascii from_str s sep Hv Hsep) as [Hnone Hsplit].
  split; [|done].
  destruct (decide (sep ∈ s)) as [Hin|Hnin].
  - destruct (split_first sep s Hin) as (l & r & Hs & Hl).
    by rewrite (Hsplit l r Hs Hl).
  - by rewrite (Hnone Hnin).
Qed.

End Utf8.

(** X7: on a valid UTF-8 string and an ASCII separator (the [','] and
    ['x'] of [main]), [parse_pair] never panics: without the separator it
    returns [None], and otherwise it parses the text before the first
    separator and the text after it. *)
Theorem parse_pair_ascii_split {T : Type} (from_str : list Z -> option T)
    (s : list Z) (sep : Z) :
  utf8_valid s = true -> (0 <= sep < 128)%Z ->
  parse_pair from_str s sep <> None /\
  (sep ∉ s -> parse_pair from_str s sep = Some None) /\
  (forall l r, s = l ++ sep :: r -> sep ∉ l ->
     parse_pair from_str s sep
     = Some (match from_str l, from_str r with
             | Some x, Some y => Some (x, y)
             | _, _ => None
             end)).
Proof. apply Utf8.parse_pair_ascii_total. Qed.

Lemma parse_pair_ascii_split_witness :
  utf8_valid [49; 120; 50]%Z = true /\ (0 <= 120 < 128)%Z /\
  parse_pair u32_from_str [49; 120; 50]%Z 120 <> None /\
  (120%Z ∉ [49; 120; 50]%Z -> parse_pair u32_from_str [49; 120; 50]%Z 120 = Some None) /\
  (forall l r, [49; 120; 50]%Z = l ++ 120%Z :: r -> 120%Z ∉ l ->
     parse_pair u32_from_str [49; 120; 50]%Z 120
     = Some (match u32_from_str l, u32_from_str r with
             | Some x, Some y => Some (x, y)
             | _, _ => None
             end)).
Proof.
  assert (Hv : utf8_valid [49; 120; 50]%Z = true) by reflexivity.
  assert (Hs : (0 <= 120 < 128)%Z) by lia.
  split; [exact Hv|]. split; [exact Hs|].
  exact (parse_pair_ascii_split u32_from_str [49; 120; 50]%Z 120 Hv Hs).
Defined.

(** ** [main] *)

Module MainProps.
Section WithEnv.
Context (f64_from_str : list Z -> option float) (file_create_ok : list Z -> bool).




End WithEnv.
End MainProps.



